(** * The to-do list store of [src/App.jsx]

    A shallow embedding of the state container of the [App] component and
    of its event handlers, followed by the properties of the state
    transitions: referential integrity between to-dos and categories,
    uniqueness of categories, the cascades of rename and delete, and the
    derived (filtered and sorted) view. *)

Set Warnings "-notation-overridden,-ambiguous-paths".
Set Warnings "-redundant-canonical-projection,-rewrite-rw".
From HB Require Import structures.
From mathcomp Require Import ssreflect ssrfun ssrbool eqtype ssrnat seq path.
From Stdlib Require Import ZArith NArith String Ascii Lia.

Set Implicit Arguments.
Unset Strict Implicit.
Unset Printing Implicit Defensive.

(** ** JavaScript values *)

(** A JavaScript string is a sequence of UTF-16 code units. Code units are
    the numbers below 65536; nothing below depends on the bound. *)
Definition jsstring := seq N.

(** String literals of the source, read code unit by code unit (the
    literals of [App.jsx] are all ASCII). *)
Definition js (s : string) : jsstring :=
  [seq N_of_ascii a | a <- list_ascii_of_string s].
Arguments js s%_string.

(** [Date.now()] and the [id] field built from it are integral numbers. *)
HB.instance Definition _ := hasDecEq.Build Z Z.eqb_spec.

(** The code units that [String.prototype.trim] strips: the WhiteSpace and
    LineTerminator productions of ECMAScript (TAB, LF, VT, FF, CR, SP, NBSP,
    the Unicode space separators, LS, PS and the byte-order mark). *)
Definition isWhiteSpace (c : N) : bool :=
  (c \in [:: 9; 10; 11; 12; 13; 32; 160; 5760; 8232; 8233; 8239; 8287;
             12288; 65279]%N)
  || ((8192 <=? c)%N && (c <=? 8202)%N).

Fixpoint trimStart (s : jsstring) : jsstring :=
  if s is c :: s' then (if isWhiteSpace c then trimStart s' else s) else [::].

Definition trimEnd (s : jsstring) : jsstring := rev (trimStart (rev s)).

(** [s.trim()] *)
Definition trim (s : jsstring) : jsstring := trimEnd (trimStart s).

(** No white space at the front. *)
Definition clean (s : jsstring) : bool :=
  if s is c :: _ then ~~ isWhiteSpace c else true.

(** Truthiness of a string in a condition or under [||]: a string is falsy
    exactly when it is empty. *)
Definition truthy (s : jsstring) : bool := s != [::].

(** ** The data model *)

Module Todo.

(** The object literal built by [addTodo]. *)
Record t := Make {
  id : Z;
  text : jsstring;
  completed : bool;
  category : jsstring
}.

Definition to_tuple (x : t) := (id x, text x, completed x, category x).
Definition of_tuple (p : Z * jsstring * bool * jsstring) : t :=
  let: (i, s, b, c) := p in Make i s b c.
(** [{ ...todo, completed: v }] and [{ ...todo, category: c }] *)
Definition with_completed (v : bool) (x : t) : t :=
  Make (id x) (text x) v (category x).
Definition with_category (c : jsstring) (x : t) : t :=
  Make (id x) (text x) (completed x) c.

End Todo.

(** The eight [useState] cells of [App]. [editingCategory] is [null] or a
    string. *)
Record State := MkState {
  todos : seq Todo.t;
  input : jsstring;
  categories : seq jsstring;
  selectedCategory : jsstring;
  filterCategory : jsstring;
  newCategory : jsstring;
  editingCategory : option jsstring;
  editCategoryValue : jsstring
}.

Definition Uncategorized : jsstring := js "Uncategorized".
Definition all_sentinel : jsstring := js "all".

(** The arguments of the [useState] calls. *)
Definition initialState : State :=
  {| todos := [::];
     input := js "";
     categories := [:: js "Personal"; js "Work"; js "Shopping"];
     selectedCategory := js "";
     filterCategory := all_sentinel;
     newCategory := js "";
     editingCategory := None;
     editCategoryValue := js "" |}.

(** The state setters. A handler reads the cells of the render it was
    created in and writes through the setters, so every value written below
    is computed from the state the handler started from. *)
Definition setTodos v (st : State) : State :=
  MkState v (input st) (categories st) (selectedCategory st)
    (filterCategory st) (newCategory st) (editingCategory st)
    (editCategoryValue st).
Definition setInput v (st : State) : State :=
  MkState (todos st) v (categories st) (selectedCategory st)
    (filterCategory st) (newCategory st) (editingCategory st)
    (editCategoryValue st).
Definition setCategories v (st : State) : State :=
  MkState (todos st) (input st) v (selectedCategory st)
    (filterCategory st) (newCategory st) (editingCategory st)
    (editCategoryValue st).
Definition setSelectedCategory v (st : State) : State :=
  MkState (todos st) (input st) (categories st) v
    (filterCategory st) (newCategory st) (editingCategory st)
    (editCategoryValue st).
Definition setFilterCategory v (st : State) : State :=
  MkState (todos st) (input st) (categories st) (selectedCategory st)
    v (newCategory st) (editingCategory st) (editCategoryValue st).
Definition setNewCategory v (st : State) : State :=
  MkState (todos st) (input st) (categories st) (selectedCategory st)
    (filterCategory st) v (editingCategory st) (editCategoryValue st).
Definition setEditingCategory v (st : State) : State :=
  MkState (todos st) (input st) (categories st) (selectedCategory st)
    (filterCategory st) (newCategory st) v (editCategoryValue st).
Definition setEditCategoryValue v (st : State) : State :=
  MkState (todos st) (input st) (categories st) (selectedCategory st)
    (filterCategory st) (newCategory st) (editingCategory st) v.

(** ** The handlers *)

(** [addTodo]; [now] is the value [Date.now()] returns during the call. *)
Definition addTodo (now : Z) (st : State) : State :=
  if truthy (trim (input st)) then
    let category :=
      if truthy (selectedCategory st) then selectedCategory st
      else Uncategorized in
    let st1 :=
      setTodos (todos st ++ [:: Todo.Make now (input st) false category]) st in
    setInput (js "") st1
  else st.

Definition toggleTodo (id : Z) (st : State) : State :=
  setTodos
    [seq (if Todo.id todo == id
          then Todo.with_completed (~~ Todo.completed todo) todo
          else todo) | todo <- todos st] st.

Definition deleteTodo (id : Z) (st : State) : State :=
  setTodos [seq todo <- todos st | Todo.id todo != id] st.

Definition addCategory (st : State) : State :=
  if truthy (trim (newCategory st))
     && ~~ (trim (newCategory st) \in categories st) then
    let st1 := setCategories (categories st ++ [:: trim (newCategory st)]) st in
    setNewCategory (js "") st1
  else st.

Definition deleteCategory (categoryToDelete : jsstring) (st : State) : State :=
  let st1 :=
    setCategories [seq cat <- categories st | cat != categoryToDelete] st in
  let st2 :=
    setTodos
      [seq (if Todo.category todo == categoryToDelete
            then Todo.with_category Uncategorized todo
            else todo) | todo <- todos st] st1 in
  let st3 :=
    if selectedCategory st == categoryToDelete
    then setSelectedCategory (js "") st2 else st2 in
  if filterCategory st == categoryToDelete
  then setFilterCategory all_sentinel st3 else st3.

Definition startEditCategory (category : jsstring) (st : State) : State :=
  setEditCategoryValue category (setEditingCategory (Some category) st).

Definition saveEditCategory (st : State) : State :=
  if truthy (trim (editCategoryValue st))
     && ~~ (trim (editCategoryValue st) \in categories st) then
    let oldCategory := editingCategory st in
    let newCategoryName := trim (editCategoryValue st) in
    let st1 :=
      setCategories
        [seq (if Some cat == oldCategory then newCategoryName else cat)
        | cat <- categories st] st in
    let st2 :=
      setTodos
        [seq (if Some (Todo.category todo) == oldCategory
              then Todo.with_category newCategoryName todo
              else todo) | todo <- todos st] st1 in
    let st3 :=
      if Some (selectedCategory st) == oldCategory
      then setSelectedCategory newCategoryName st2 else st2 in
    let st4 :=
      if Some (filterCategory st) == oldCategory
      then setFilterCategory newCategoryName st3 else st3 in
    setEditCategoryValue (js "") (setEditingCategory None st4)
  else st.

Definition cancelEditCategory (st : State) : State :=
  setEditCategoryValue (js "") (setEditingCategory None st).

(** ** The operations of the store

    One operation is one user gesture: the controls that feed a handler are
    set first (their [onChange] handlers are the plain setters), then the
    handler runs. *)

(** Typing [text], choosing [category] in the select ([""] stands for the
    "Uncategorized" option) and pressing Add. *)
Definition addTodoWith (text category : jsstring) (now : Z) (st : State) :=
  addTodo now (setSelectedCategory category (setInput text st)).

(** Typing [name] in the new-category box and pressing Add Category. *)
Definition addCategoryNamed (name : jsstring) (st : State) :=
  addCategory (setNewCategory name st).

(** Edit on [oldName], typing [newName], Save. *)
Definition renameCategory (oldName newName : jsstring) (st : State) :=
  saveEditCategory
    (setEditCategoryValue newName (startEditCategory oldName st)).

Inductive Op :=
| AddTodo (text category : jsstring) (now : Z)
| ToggleTodo (id : Z)
| DeleteTodo (id : Z)
| AddCategory (name : jsstring)
| DeleteCategory (name : jsstring)
| RenameCategory (oldName newName : jsstring)
| SetFilter (categoryOrAll : jsstring)
| SetInputCategory (category : jsstring).

Definition apply (o : Op) (st : State) : State :=
  match o with
  | AddTodo text category now => addTodoWith text category now st
  | ToggleTodo id => toggleTodo id st
  | DeleteTodo id => deleteTodo id st
  | AddCategory name => addCategoryNamed name st
  | DeleteCategory name => deleteCategory name st
  | RenameCategory oldName newName => renameCategory oldName newName st
  | SetFilter c => setFilterCategory c st
  | SetInputCategory c => setSelectedCategory c st
  end.

Definition run (ops : seq Op) (st : State) : State :=
  foldl (fun s o => apply o s) st ops.

Definition reachable (st : State) : Prop :=
  exists ops, st = run ops initialState.

(** ** The derived view *)

Section DerivedView.

(** [a.localeCompare(b)] is computed by the host's collation for the user's
    locale: it is a parameter of the view. *)
Variable localeCompare : jsstring -> jsstring -> Z.

Definition filteredTodos (st : State) : seq Todo.t :=
  if filterCategory st == all_sentinel then todos st
  else [seq todo <- todos st | Todo.category todo == filterCategory st].

(** The comparison function handed to [sort]. *)
Definition compareFn (a b : Todo.t) : Z :=
  localeCompare (Todo.category a) (Todo.category b).

(** [a] may stay before [b]: the comparison function does not return a
    positive number. *)
Definition before (a b : Todo.t) : bool := (compareFn a b <=? 0)%Z.

(** [[...filteredTodos].sort(compareFn)]. [Array.prototype.sort] is a stable
    sort (ECMAScript 2019); for a consistent comparison function every
    stable sort returns the same array, here the one of merge sort. *)
Definition sortedTodos (st : State) : seq Todo.t :=
  sort before (filteredTodos st).

End DerivedView.

(** Comparison by code units, the collation of a host without locale
    data. *)
Fixpoint codeUnitCompare (a b : jsstring) : Z :=
  match a, b with
  | [::], [::] => 0%Z
  | [::], _ :: _ => (-1)%Z
  | _ :: _, [::] => 1%Z
  | x :: a', y :: b' =>
      if (x <? y)%N then (-1)%Z
      else if (y <? x)%N then 1%Z
      else codeUnitCompare a' b'
  end.

(** ** Predicates on states and runs *)

(** A category a to-do may carry, given the listed ones: the reserved name
    or a member of the list. *)
Definition listed (cs : seq jsstring) (c : jsstring) : bool :=
  (c == Uncategorized) || (c \in cs).

(** Referential integrity: the category of every to-do is the reserved name
    or a member of [categories]. *)
Definition integrity (st : State) : bool :=
  all (fun todo => listed (categories st) (Todo.category todo)) (todos st).

(** The input selection is the empty choice or a listed category. *)
Definition selection_ok (st : State) : bool :=
  (selectedCategory st == js "") || (selectedCategory st \in categories st).

(** Every stored category is its own trimmed form. *)
Definition trimmed (st : State) : bool :=
  all (fun cat => trim cat == cat) (categories st).

(** The arguments the rendered controls can supply: the category select
    offers [""] and the listed categories, and Edit is a button of a listed
    category. *)
Definition offered (st : State) (o : Op) : bool :=
  match o with
  | AddTodo _ category _ => (category == js "") || (category \in categories st)
  | SetInputCategory category =>
      (category == js "") || (category \in categories st)
  | RenameCategory oldName _ => oldName \in categories st
  | _ => true
  end.

Fixpoint offered_run (ops : seq Op) (st : State) : bool :=
  if ops is o :: ops' then offered st o && offered_run ops' (apply o st)
  else true.

(** The clock readings handed to the successive [AddTodo] operations. *)
Definition stamps (ops : seq Op) : seq Z :=
  pmap (fun o => if o is AddTodo _ _ now then Some now else None) ops.

Definition ids (st : State) : seq Z := [seq Todo.id todo | todo <- todos st].

(** The part of the state the store's operations are specified on: both
    collections and both selections. *)
Definition store (st : State) :=
  (todos st, categories st, selectedCategory st, filterCategory st).

(** ** The rendered controls

    What the component lets the user do, state by state: the events of the
    controls returned by [App], each with the handler it fires. *)
Inductive Event :=
| TypeInput (value : jsstring)
| PressAdd (now : Z)
| SelectCategory (value : jsstring)
| SelectFilter (value : jsstring)
| TypeNewCategory (value : jsstring)
| PressAddCategory
| PressEdit (category : jsstring)
| PressDelete (category : jsstring)
| TypeEditValue (value : jsstring)
| PressSave
| PressCancel
| CheckTodo (id : Z)
| PressDeleteTodo (id : Z).

Definition handle (e : Event) (st : State) : State :=
  match e with
  | TypeInput value => setInput value st
  | PressAdd now => addTodo now st
  | SelectCategory value => setSelectedCategory value st
  | SelectFilter value => setFilterCategory value st
  | TypeNewCategory value => setNewCategory value st
  | PressAddCategory => addCategory st
  | PressEdit category => startEditCategory category st
  | PressDelete category => deleteCategory category st
  | TypeEditValue value => setEditCategoryValue value st
  | PressSave => saveEditCategory st
  | PressCancel => cancelEditCategory st
  | CheckTodo id => toggleTodo id st
  | PressDeleteTodo id => deleteTodo id st
  end.

(** The row of a category shows the edit box, Save and Cancel when it is
    the category being edited, and Edit and Delete otherwise. *)
Definition editing_row (st : State) : bool :=
  has (fun category => editingCategory st == Some category) (categories st).

Definition plain_row (st : State) (category : jsstring) : bool :=
  (category \in categories st) && (editingCategory st != Some category).

(** The event can be fired in [st]: its control is rendered, and a select
    reports one of its options. *)
Definition rendered (st : State) (e : Event) : bool :=
  match e with
  | SelectCategory value => value \in js "" :: categories st
  | SelectFilter value =>
      value \in [:: js "all", js "Uncategorized" & categories st]
  | PressEdit category | PressDelete category => plain_row st category
  | TypeEditValue _ | PressSave | PressCancel => editing_row st
  | CheckTodo id | PressDeleteTodo id =>
      id \in [seq Todo.id todo | todo <- filteredTodos st]
  | _ => true
  end.

Definition play (events : seq Event) (st : State) : State :=
  foldl (fun s e => handle e s) st events.

Fixpoint rendered_run (events : seq Event) (st : State) : bool :=
  if events is e :: events' then
    rendered st e && rendered_run events' (handle e st)
  else true.

(** The category being edited, if any, is listed. *)
Definition editing_ok (st : State) : bool :=
  if editingCategory st is Some category then category \in categories st
  else true.

(** ** Well-formed collections *)

(** A name [addCategory] or [saveEditCategory] can store: not empty, and
    its own trimmed form. *)
Definition category_ok (c : jsstring) : bool := (c != [::]) && (trim c == c).

Definition categories_ok (st : State) : bool :=
  uniq (categories st) && all category_ok (categories st).

(** A to-do [addTodo] can build and the cascades can rewrite: its text is
    not blank and its category is not the empty string. *)
Definition todo_ok (todo : Todo.t) : bool :=
  (trim (Todo.text todo) != [::]) && (Todo.category todo != [::]).

Definition todos_ok (st : State) : bool := all todo_ok (todos st).

(** The value of the filter select is one of its options. *)
Definition filter_ok (st : State) : bool :=
  filterCategory st \in [:: js "all", js "Uncategorized" & categories st].

(** No white space at either end. *)
Definition clean_ends (s : jsstring) : bool := clean s && clean (rev s).

(** The categories carried by the to-dos. *)
Definition used (st : State) : seq jsstring :=
  [seq Todo.category todo | todo <- todos st].

(** What the check box of a to-do does to it, field by field. *)
Definition toggled (id : Z) (todo : Todo.t) : Todo.t :=
  Todo.Make (Todo.id todo) (Todo.text todo)
    ((Todo.id todo == id) (+) Todo.completed todo) (Todo.category todo).

(** What a cascade may not touch in a to-do: its id, text and check box. *)
Definition content (todo : Todo.t) :=
  (Todo.id todo, Todo.text todo, Todo.completed todo).

(** The events whose handlers call [setTodos] to add, check or remove a
    to-do; the others are the category and selection events. *)
Definition todo_event (e : Event) : bool :=
  match e with
  | PressAdd _ | CheckTodo _ | PressDeleteTodo _ => true
  | _ => false
  end.

(** ** The rename operation as the specification words it

    No-op if the trimmed new name is empty or the new name is listed;
    otherwise the old name is replaced by the new name, as given, in the
    categories, the to-dos and both selections. *)
Definition renameCategory_spec (oldName newName : jsstring) (st : State) :=
  if (trim newName == [::]) || (newName \in categories st) then st
  else
    let st1 :=
      setCategories
        [seq (if cat == oldName then newName else cat) | cat <- categories st]
        st in
    let st2 :=
      setTodos
        [seq (if Todo.category todo == oldName
              then Todo.with_category newName todo else todo)
        | todo <- todos st] st1 in
    let st3 :=
      if selectedCategory st == oldName
      then setSelectedCategory newName st2 else st2 in
    if filterCategory st == oldName
    then setFilterCategory newName st3 else st3.

(** * Properties *)

(** To-dos are compared field by field. *)
Lemma Todo_to_tupleK : cancel Todo.to_tuple Todo.of_tuple.
Proof. by case. Qed.

HB.instance Definition _ := Equality.copy Todo.t (can_type Todo_to_tupleK).

(** ** Trimming *)

Lemma trimStart_clean s : clean (trimStart s).
Proof. by elim: s => //= c s IH; case: ifP => //= ->. Qed.

Lemma clean_trimStart s : clean s -> trimStart s = s.
Proof. by case: s => //= c s /negbTE ->. Qed.

Lemma trimStart_suffix s : exists p, s = p ++ trimStart s.
Proof.
elim: s => [|c s [p Hp]] /=; first by exists [::].
by case: ifP => _; [exists (c :: p); rewrite /= -Hp | exists [::]].
Qed.

Lemma clean_prefix (x y : jsstring) : clean (x ++ y) -> clean x.
Proof. by case: x. Qed.

Lemma trimEnd_clean s : clean s -> clean (trimEnd s).
Proof.
rewrite /trimEnd; have [p Hp] := trimStart_suffix (rev s) => Hs.
apply: (@clean_prefix _ (rev p)).
by rewrite -rev_cat -Hp revK.
Qed.

Lemma trim_clean s : clean (trim s).
Proof. exact/trimEnd_clean/trimStart_clean. Qed.

Lemma trim_idem s : trim (trim s) = trim s.
Proof.
rewrite {1}/trim (clean_trimStart (trim_clean s)).
by rewrite /trim /trimEnd revK (clean_trimStart (trimStart_clean _)).
Qed.

Lemma truthyE s : truthy s = (s != [::]).
Proof. by []. Qed.

(** ** Adding a to-do *)

Lemma js_empty : js "" = [::].
Proof. by []. Qed.

Lemma addTodoWith_todos st text category now :
  todos (addTodoWith text category now st) =
    if trim text == [::] then todos st
    else rcons (todos st)
           (Todo.Make now text false
              (if category == js "" then Uncategorized else category)).
Proof.
rewrite /addTodoWith /addTodo /= !truthyE js_empty.
by case: (trim text == [::]) => //=; rewrite cats1; case: (category == [::]).
Qed.

Lemma addTodoWith_categories st text category now :
  categories (addTodoWith text category now st) = categories st.
Proof. by rewrite /addTodoWith /addTodo /=; case: ifP. Qed.

Lemma addTodoWith_selected st text category now :
  selectedCategory (addTodoWith text category now st) = category.
Proof. by rewrite /addTodoWith /addTodo /=; case: ifP. Qed.

(** C4. [addTodo(text, category)] leaves the to-dos unchanged when [text]
    trims to the empty string, in particular for [""] and ["   "];
    otherwise the collection grows by exactly one to-do, placed last, whose
    text is [text] as given (not trimmed), whose [completed] flag is
    [false] and whose category is [category], or "Uncategorized" when no
    category is selected; the to-dos already there are unchanged. *)
Theorem addTodo_appends st text category now :
  todos (addTodoWith text category now st) =
    (if trim text == [::] then todos st
     else rcons (todos st)
            (Todo.Make now text false
               (if category == js "" then Uncategorized else category)))
  /\ todos (addTodoWith (js "") category now st) = todos st
  /\ todos (addTodoWith (js "   ") category now st) = todos st.
Proof. by split; first exact: addTodoWith_todos. Qed.

(** ** Toggling a to-do *)

Lemma toggleTodo_absent st i : i \notin ids st -> toggleTodo i st = st.
Proof.
case: st => ts inp cs sel flt nc ec ev; rewrite /toggleTodo /ids /setTodos /=.
move=> Hi; congr MkState; apply: map_id_in => t Ht.
by case: eqP => // Et; move: Hi; rewrite -Et map_f.
Qed.

Lemma toggleTodo_twice st i : toggleTodo i (toggleTodo i st) = st.
Proof.
case: st => ts inp cs sel flt nc ec ev; rewrite /toggleTodo /setTodos /=.
congr MkState; rewrite -map_comp; apply: map_id_in => -[j x b c] _ /=.
by case E: (j == i); rewrite /= E //= /Todo.with_completed /= negbK.
Qed.

(** C7. [toggleTodo(id)] negates the [completed] flag of the to-dos whose
    id is [id] and changes nothing else, neither in the to-dos (ids, texts,
    categories, order) nor in the rest of the state; it changes nothing at
    all when no to-do has that id; and applied twice in a row it gives back
    the state it started from, every [completed] flag included. *)
Theorem toggleTodo_involutive st i :
  [/\ ids (toggleTodo i st) = ids st,
      [seq Todo.text t | t <- todos (toggleTodo i st)]
        = [seq Todo.text t | t <- todos st],
      [seq Todo.category t | t <- todos (toggleTodo i st)]
        = [seq Todo.category t | t <- todos st],
      [seq Todo.completed t | t <- todos (toggleTodo i st)]
        = [seq (Todo.id t == i) (+) Todo.completed t | t <- todos st]
    & toggleTodo i st = setTodos (todos (toggleTodo i st)) st]
  /\ (i \notin ids st -> toggleTodo i st = st)
  /\ toggleTodo i (toggleTodo i st) = st.
Proof.
split; last by split; [exact: toggleTodo_absent | exact: toggleTodo_twice].
rewrite /ids /toggleTodo /= -!map_comp.
by split=> //; apply: eq_map => t /=; case: ifP.
Qed.

Lemma toggleTodo_involutive_witness :
  3%Z \notin ids initialState /\ toggleTodo 3 initialState = initialState.
Proof.
split; first by [].
by have [_ [H _]] := toggleTodo_involutive initialState 3; apply: H.
Defined.

(** ** Adding a category *)

Lemma addCategoryNamed_categories st name :
  categories (addCategoryNamed name st) =
    if (trim name != [::]) && (trim name \notin categories st)
    then rcons (categories st) (trim name) else categories st.
Proof.
rewrite /addCategoryNamed /addCategory /= truthyE.
by case: ifP => //= _; rewrite cats1.
Qed.

Lemma addCategoryNamed_todos st name :
  todos (addCategoryNamed name st) = todos st.
Proof. by rewrite /addCategoryNamed /addCategory /=; case: ifP. Qed.

Lemma addCategoryNamed_selected st name :
  selectedCategory (addCategoryNamed name st) = selectedCategory st.
Proof. by rewrite /addCategoryNamed /addCategory /=; case: ifP. Qed.

Lemma addCategoryNamed_store st name :
  store (addCategoryNamed name st) =
    (todos st, categories (addCategoryNamed name st),
     selectedCategory st, filterCategory st).
Proof. by rewrite /addCategoryNamed /addCategory /=; case: ifP. Qed.

(** C9. When the trimmed name is neither empty nor listed, [addCategory]
    puts the trimmed name, not the text as typed, at the end of the
    categories; the membership test is made on the trimmed name too, so
    [addCategory(" Work ")] after [addCategory("Work")] changes neither
    collection nor selection. *)
Theorem addCategory_trims st name :
  categories (addCategoryNamed name st) =
    (if (trim name != [::]) && (trim name \notin categories st)
     then rcons (categories st) (trim name) else categories st)
  /\ store (addCategoryNamed (js " Work ") (addCategoryNamed (js "Work") st))
     = store (addCategoryNamed (js "Work") st).
Proof.
split; first exact: addCategoryNamed_categories.
rewrite [LHS]addCategoryNamed_store [RHS]addCategoryNamed_store.
rewrite [in LHS]addCategoryNamed_categories.
have -> : trim (js " Work ") = js "Work" by [].
have -> /= : js "Work" \in categories (addCategoryNamed (js "Work") st).
  rewrite addCategoryNamed_categories.
  have -> : trim (js "Work") = js "Work" by [].
  have [H|H] := boolP (js "Work" \in categories st); first by rewrite andbF.
  by rewrite andbT mem_rcons inE eqxx.
exact: addCategoryNamed_store.
Qed.

(** ** Deleting a category *)

Section DeleteCategory.

Variables (st : State) (name : jsstring).

Lemma deleteCategory_categories :
  categories (deleteCategory name st) = [seq c <- categories st | c != name].
Proof. by rewrite /deleteCategory; do 2![case: ifP => _]. Qed.

Lemma deleteCategory_todos :
  todos (deleteCategory name st) =
    [seq (if Todo.category t == name
          then Todo.with_category Uncategorized t else t) | t <- todos st].
Proof. by rewrite /deleteCategory; do 2![case: ifP => _]. Qed.

Lemma deleteCategory_selected :
  selectedCategory (deleteCategory name st) =
    if selectedCategory st == name then js "" else selectedCategory st.
Proof. by rewrite /deleteCategory; do 2![case: ifP => _]. Qed.

Lemma deleteCategory_filter :
  filterCategory (deleteCategory name st) =
    if filterCategory st == name then all_sentinel else filterCategory st.
Proof. by rewrite /deleteCategory; do 2![case: ifP => _]. Qed.


Lemma deleteCategory_absent_categories :
  name \notin categories st ->
  categories (deleteCategory name st) = categories st.
Proof.
move=> Hn; rewrite deleteCategory_categories; apply/all_filterP/allP => c Hc.
by apply: contraNneq Hn => <-.
Qed.

End DeleteCategory.

(** C10. [deleteCategory(name)] cascades also when [name] is not listed:
    the categories are then unchanged, but every to-do whose category is
    [name] is still rewritten to "Uncategorized", an input selection equal
    to [name] still becomes [""] and a filter equal to [name] still becomes
    ["all"]. The operation is therefore not the identity on unlisted names:
    after [setFilter("Uncategorized")] on the initial store,
    [deleteCategory("Uncategorized")] changes the filter. *)
Theorem deleteCategory_absent :
  (forall st name, name \notin categories st ->
     let st' := deleteCategory name st in
     [/\ categories st' = categories st,
         todos st' =
           [seq (if Todo.category t == name
                 then Todo.with_category Uncategorized t else t)
           | t <- todos st],
         selectedCategory st' =
           (if selectedCategory st == name then js "" else selectedCategory st)
       & filterCategory st' =
           (if filterCategory st == name then all_sentinel
            else filterCategory st)])
  /\ (exists st name,
        [/\ reachable st, name \notin categories st
          & store (deleteCategory name st) <> store st]).
Proof.
split=> [st name Hn|].
  split; rewrite ?deleteCategory_todos ?deleteCategory_selected
    ?deleteCategory_filter //.
  exact: deleteCategory_absent_categories.
exists (run [:: SetFilter Uncategorized] initialState), Uncategorized.
by split; first by exists [:: SetFilter Uncategorized].
Qed.

Lemma deleteCategory_absent_witness :
  let st := run [:: AddTodo (js "call") (js "Ghost") 7;
                    SetFilter (js "Ghost")] initialState in
  js "Ghost" \notin categories st
  /\ [seq Todo.category t | t <- todos (deleteCategory (js "Ghost") st)]
     = [:: Uncategorized]
  /\ filterCategory (deleteCategory (js "Ghost") st) = all_sentinel.
Proof.
move=> st; split; first by [].
have [H _] := deleteCategory_absent.
by have [_ -> _ ->] := H st (js "Ghost") (erefl _).
Defined.

(** ** Renaming a category *)

Section RenameCategory.

Variables (st : State) (oldName newName : jsstring).

Lemma Some_eqE (x y : jsstring) : (Some x == Some y) = (x == y).
Proof. by []. Qed.

(** The test that guards [saveEditCategory], on the trimmed new name. *)
Let accepted : bool :=
  (trim newName != [::]) && (trim newName \notin categories st).

Lemma renameCategory_categories :
  categories (renameCategory oldName newName st) =
    if accepted
    then [seq (if c == oldName then trim newName else c) | c <- categories st]
    else categories st.
Proof.
rewrite /renameCategory /saveEditCategory /accepted /= truthyE.
by case: ifP => _ //=; rewrite ?Some_eqE; do 2![case: ifP => _ //=].
Qed.

Lemma renameCategory_todos :
  todos (renameCategory oldName newName st) =
    if accepted
    then [seq (if Todo.category t == oldName
               then Todo.with_category (trim newName) t else t)
         | t <- todos st]
    else todos st.
Proof.
rewrite /renameCategory /saveEditCategory /accepted /= truthyE.
by case: ifP => _ //=; rewrite ?Some_eqE; do 2![case: ifP => _ //=].
Qed.

Lemma renameCategory_selected :
  selectedCategory (renameCategory oldName newName st) =
    if accepted && (selectedCategory st == oldName) then trim newName
    else selectedCategory st.
Proof.
rewrite /renameCategory /saveEditCategory /accepted /= truthyE.
by case: ifP => _ //=; rewrite ?Some_eqE; do 2![case: ifP => _ //=].
Qed.

Lemma renameCategory_filter :
  filterCategory (renameCategory oldName newName st) =
    if accepted && (filterCategory st == oldName) then trim newName
    else filterCategory st.
Proof.
rewrite /renameCategory /saveEditCategory /accepted /= truthyE.
by case: ifP => _ //=; rewrite ?Some_eqE; do 2![case: ifP => _ //=].
Qed.

End RenameCategory.


(** The trimmed name is also the one looked up: renaming "Personal" to
    [" Work "] is refused, although [" Work "] itself is not listed. *)
Lemma renameCategory_spec_fails_lookup :
  store (renameCategory (js "Personal") (js " Work ") initialState)
    = store initialState
  /\ store (renameCategory_spec (js "Personal") (js " Work ") initialState)
     <> store initialState.
Proof. by []. Qed.


(** ** Categories are never duplicated *)

Lemma run_cat ops1 ops2 st : run (ops1 ++ ops2) st = run ops2 (run ops1 st).
Proof. exact: foldl_cat. Qed.

Lemma replace_uniq (s : seq jsstring) (old n : jsstring) :
  n \notin s -> uniq s -> uniq [seq (if c == old then n else c) | c <- s].
Proof.
move=> Hn Hu; rewrite map_inj_in_uniq // => x y Hx Hy.
case: (eqVneq x old) => [->|_]; case: (eqVneq y old) => [->|_] // E.
- by move: Hn; rewrite E Hy.
- by move: Hn; rewrite -E Hx.
Qed.

Lemma apply_uniq o st :
  uniq (categories st) -> uniq (categories (apply o st)).
Proof.
case: o => [text c now|i|i|name|name|old new|c|c] //= Hu.
- by rewrite addTodoWith_categories.
- rewrite addCategoryNamed_categories; case: ifP => // /andP[_ Hn].
  by rewrite rcons_uniq Hn.
- by rewrite deleteCategory_categories filter_uniq.
- rewrite renameCategory_categories; case: ifP => // /andP[_ Hn].
  exact: replace_uniq.
Qed.

Lemma apply_trimmed o st : trimmed st -> trimmed (apply o st).
Proof.
rewrite /trimmed.
case: o => [text c now|i|i|name|name|old new|c|c] //= Ht.
- by rewrite addTodoWith_categories.
- rewrite addCategoryNamed_categories; case: ifP => // _.
  by rewrite all_rcons trim_idem eqxx.
- rewrite deleteCategory_categories all_filter; apply: sub_all Ht => c /= Hc.
  by rewrite Hc implybT.
- rewrite renameCategory_categories; case: ifP => // _.
  rewrite all_map; apply: sub_all Ht => c /= Hc.
  by case: ifP => // _; rewrite trim_idem.
Qed.

Lemma run_uniq ops st : uniq (categories st) -> uniq (categories (run ops st)).
Proof. by elim: ops st => //= o ops IH st Hu; apply/IH/apply_uniq. Qed.

Lemma run_trimmed ops st : trimmed st -> trimmed (run ops st).
Proof. by elim: ops st => //= o ops IH st Hu; apply/IH/apply_trimmed. Qed.

Lemma addCategoryNamed_listed st name :
  trimmed st -> name \in categories st ->
  store (addCategoryNamed name st) = store st.
Proof.
move=> /allP Ht Hn; rewrite addCategoryNamed_store addCategoryNamed_categories.
by rewrite (eqP (Ht _ Hn)) Hn andbF.
Qed.

(** C6. In every state reached from the initial one by the operations of
    the store, whatever their arguments, no string occurs twice in the
    categories (strings compared exactly, case included); adding a name
    that is listed changes neither collection nor selection, and after
    [addCategory("Work")] twice "Work" is listed exactly once. *)
Theorem categories_uniq ops :
  let st := run ops initialState in
  [/\ uniq (categories st),
      forall name, name \in categories st ->
        store (addCategoryNamed name st) = store st
    & count_mem (js "Work")
        (categories
           (addCategoryNamed (js "Work") (addCategoryNamed (js "Work") st)))
      = 1].
Proof.
move=> st; have Hu ops' : uniq (categories (run ops' initialState)).
  exact: run_uniq.
split; first exact: Hu.
  by move=> name; apply: addCategoryNamed_listed; apply: run_trimmed.
have -> : addCategoryNamed (js "Work") (addCategoryNamed (js "Work") st)
          = run (ops ++ [:: AddCategory (js "Work"); AddCategory (js "Work")])
              initialState by rewrite run_cat.
rewrite count_uniq_mem // run_cat /= -/st.
rewrite [categories _]addCategoryNamed_categories.
set st1 := addCategoryNamed _ st.
have H1 : js "Work" \in categories st1.
  rewrite addCategoryNamed_categories.
  have -> : trim (js "Work") = js "Work" by [].
  have [H|H] := boolP (js "Work" \in categories st); first by rewrite andbF.
  by rewrite andbT mem_rcons inE eqxx.
have -> : trim (js "Work") = js "Work" by [].
by rewrite H1 andbF H1.
Qed.

Lemma categories_uniq_witness :
  js "Work" \in categories (run [:: AddCategory (js "Home")] initialState)
  /\ store (addCategoryNamed (js "Work")
              (run [:: AddCategory (js "Home")] initialState))
     = store (run [:: AddCategory (js "Home")] initialState).
Proof.
split; first by [].
have [_ H _] := categories_uniq [:: AddCategory (js "Home")].
exact: H.
Defined.

(** ** Deleting a category of the store *)



(** The scenario of the specification: with "Work" as only category, a
    to-do filed under "Work" falls back to "Uncategorized" when "Work" is
    deleted, and no category is left. *)
Example delete_scenario :
  let st0 := setCategories [:: js "Work"] initialState in
  let st1 := apply (AddTodo (js "buy milk") (js "Work") 1) st0 in
  let st2 := apply (DeleteCategory (js "Work")) st1 in
  [/\ todos st1 = [:: Todo.Make 1 (js "buy milk") false (js "Work")],
      categories st2 = [::]
    & todos st2 = [:: Todo.Make 1 (js "buy milk") false Uncategorized]].
Proof. by []. Qed.

(** ** Referential integrity *)

Lemma integrityE st :
  integrity st = all (fun t => listed (categories st) (Todo.category t))
                   (todos st).
Proof. by []. Qed.

Lemma listed_replace cs old n c :
  old \in cs -> listed cs c ->
  listed [seq (if x == old then n else x) | x <- cs]
    (if c == old then n else c).
Proof.
move=> Ho; rewrite /listed; case: (eqVneq c old) => [_ _|Hc].
  apply/orP; right; apply/mapP; exists old => //.
  by rewrite eqxx.
case/orP => [->//|Hin]; apply/orP; right; apply/mapP; exists c => //.
by rewrite (negbTE Hc).
Qed.

Lemma selection_replace cs old n (c : jsstring) :
  old \in cs -> (c == js "") || (c \in cs) ->
  let c' := if c == old then n else c in
  (c' == js "") || (c' \in [seq (if x == old then n else x) | x <- cs]).
Proof.
move=> Ho /=; case: (eqVneq c old) => [_ _|Hc].
  apply/orP; right; apply/mapP; exists old => //.
  by rewrite eqxx.
case/orP => [->//|Hin]; apply/orP; right; apply/mapP; exists c => //.
by rewrite (negbTE Hc).
Qed.

Lemma apply_integrity o st :
  offered st o -> integrity st && selection_ok st ->
  integrity (apply o st) && selection_ok (apply o st).
Proof.
rewrite !integrityE /selection_ok.
case: o => [text c now|i|i|name|name|old new|c|c] /= Ho /andP[Hi Hs].
- rewrite addTodoWith_todos addTodoWith_categories addTodoWith_selected Ho.
  rewrite andbT; case: ifP => // _; rewrite all_rcons Hi andbT /listed /=.
  by case: eqP Ho => //= _ ->; rewrite orbT.
- rewrite Hs andbT all_map; apply: sub_all Hi => t /=.
  by case: ifP.
- by rewrite Hs andbT all_filter; apply: sub_all Hi => t /= ->; rewrite implybT.
- rewrite addCategoryNamed_todos addCategoryNamed_selected.
  rewrite addCategoryNamed_categories; case: ifP => _; first last.
    by rewrite Hi Hs.
  apply/andP; split.
    apply: sub_all Hi => t /orP[E|E]; apply/orP; [by left | right].
    by rewrite mem_rcons inE E orbT.
  by case/orP: Hs => [->//|E]; rewrite mem_rcons inE E !orbT.
- rewrite deleteCategory_todos deleteCategory_categories.
  rewrite deleteCategory_selected; apply/andP; split.
    rewrite all_map; apply: sub_all Hi => t /=; rewrite /listed.
    case: (eqVneq (Todo.category t) name) => [_ _|Hne] //=.
    by case/orP => [->//|E]; rewrite mem_filter Hne E orbT.
  case: (eqVneq (selectedCategory st) name) => [_|Hne]; first by rewrite eqxx.
  by case/orP: Hs => [->//|E]; rewrite mem_filter Hne E orbT.
- rewrite renameCategory_todos renameCategory_categories.
  rewrite renameCategory_selected; case: ifP => _ /=; last by rewrite Hi Hs.
  apply/andP; split; last exact: selection_replace.
  rewrite all_map; apply: sub_all Hi => t /= Ht.
  have := listed_replace (trim new) Ho Ht.
  by case: ifP.
- by rewrite Hi Hs.
- by rewrite Hi Ho.
Qed.

Lemma run_integrity ops st :
  offered_run ops st -> integrity st && selection_ok st ->
  integrity (run ops st) && selection_ok (run ops st).
Proof.
elim: ops st => //= o ops IH st /andP[Ho Hr] Hinv.
exact/IH/apply_integrity.
Qed.

(** C1, as stated, fails: the setters and [addTodo] take any string, so a
    to-do can be filed under a category that was never listed. *)
Lemma integrity_fails :
  ~ (forall ops, integrity (run ops initialState)).
Proof. by move/(_ [:: AddTodo (js "call") (js "Ghost") 7]). Qed.

(** It also fails through [renameCategory] alone, on an old name that is
    not listed: the to-dos under "Uncategorized" are moved to the new name,
    which the categories do not receive. *)
Lemma integrity_fails_rename :
  integrity
    (run [:: AddTodo (js "call") (js "") 7;
             RenameCategory Uncategorized (js "Misc")] initialState) = false.
Proof. by []. Qed.

(** C1, amended. In every state reached from the initial one by operations
    whose category arguments are those the controls offer (the category of
    [addTodo] and of [setInputCategory] is [""] or a category listed at
    that moment, the old name of [renameCategory] is listed at that
    moment; every other argument is arbitrary), the category of every to-do
    is "Uncategorized" or is listed in the categories. *)
Theorem integrity_offered ops :
  offered_run ops initialState -> integrity (run ops initialState).
Proof.
have H0 : integrity initialState && selection_ok initialState by [].
by move=> Ho; have /andP[] := run_integrity Ho H0.
Qed.

Lemma integrity_offered_witness :
  let ops := [:: AddCategory (js "Home"); AddTodo (js "sweep") (js "Home") 7;
                 RenameCategory (js "Home") (js "House");
                 DeleteCategory (js "House")] in
  offered_run ops initialState /\ integrity (run ops initialState).
Proof. by move=> ops; split; last apply: integrity_offered. Defined.

(** ** Integrity under the rendered controls

    The handlers validate no category; the controls do: the select reports
    a listed category or [""], and Edit, Delete and Save belong to the row
    of a listed category. Driven by its own controls, the component keeps
    referential integrity. *)

Lemma addTodo_op st now :
  addTodo now st = addTodoWith (input st) (selectedCategory st) now st.
Proof. by case: st. Qed.

Lemma addCategory_op st :
  addCategory st = addCategoryNamed (newCategory st) st.
Proof. by case: st. Qed.

Lemma saveEditCategory_op st category :
  editingCategory st = Some category ->
  saveEditCategory st = renameCategory category (editCategoryValue st) st.
Proof. by case: st => ts inp cs sel flt nc ec ev /= ->. Qed.

Lemma editing_rowP st :
  reflect (exists2 category, category \in categories st
                             & editingCategory st = Some category)
          (editing_row st).
Proof.
apply: (iffP hasP) => [[c Hc /eqP E]|[c Hc E]]; exists c => //.
by rewrite E.
Qed.

Lemma handle_editing e st :
  rendered st e -> editing_ok st -> editing_ok (handle e st).
Proof.
rewrite /editing_ok.
case: e => [v|now|v|v|v||c|c|v|||i|i] //=.
- by rewrite /addTodo; case: ifP.
- rewrite /addCategory; case: ifP => //= _ _.
  by case: (editingCategory st) => // c; rewrite mem_cat => ->.
- by case/andP.
- case/andP=> _ Hne; rewrite deleteCategory_categories.
  have -> : editingCategory (deleteCategory c st) = editingCategory st.
    by rewrite /deleteCategory; do 2![case: ifP => _].
  case: (editingCategory st) Hne => // c' Hne; rewrite mem_filter => ->.
  by rewrite andbT; apply: contraNneq Hne => ->.
- by rewrite /saveEditCategory; case: ifP.
Qed.

Lemma handle_integrity e st :
  rendered st e ->
  [&& integrity st, selection_ok st & editing_ok st] ->
  [&& integrity (handle e st), selection_ok (handle e st)
    & editing_ok (handle e st)].
Proof.
move=> Hr /and3P[Hi Hs He]; rewrite andbA (handle_editing Hr He) andbT.
have Hinv : integrity st && selection_ok st by rewrite Hi Hs.
case: e Hr => [v|now|v|v|v||c|c|v|||i|i] //= Hr.
- rewrite addTodo_op.
  exact: (@apply_integrity (AddTodo (input st) (selectedCategory st) now)).
- by apply: (@apply_integrity (SetInputCategory v)) => //; rewrite -in_cons.
- rewrite addCategory_op.
  exact: (@apply_integrity (AddCategory (newCategory st))).
- exact: (@apply_integrity (DeleteCategory c)).
- have [c Hc E] := editing_rowP st Hr; rewrite (saveEditCategory_op E).
  exact: (@apply_integrity (RenameCategory c (editCategoryValue st))).
- exact: (@apply_integrity (ToggleTodo i)).
- exact: (@apply_integrity (DeleteTodo i)).
Qed.

(** Every state the user can bring the component to has referential
    integrity. *)
Lemma rendered_integrity events :
  rendered_run events initialState -> integrity (play events initialState).
Proof.
have H0 : [&& integrity initialState, selection_ok initialState
            & editing_ok initialState] by [].
elim: events initialState H0 => [|e events IH] st Hinv /=.
  by case/and3P: Hinv.
by case/andP=> Hr Hrun; apply: IH Hrun; apply: handle_integrity.
Qed.

(** ** Ids and the clock *)

Lemma Zleb_trans : transitive Z.leb.
Proof. by move=> y x z /Z.leb_le Hxy /Z.leb_le Hyz; apply/Z.leb_le; lia. Qed.

Lemma Zltb_trans : transitive Z.ltb.
Proof. by move=> y x z /Z.ltb_lt Hxy /Z.ltb_lt Hyz; apply/Z.ltb_lt; lia. Qed.

Lemma Zltb_irr : irreflexive Z.ltb.
Proof. by move=> x; apply/negbTE/negP => /Z.ltb_lt; lia. Qed.

Lemma ids_rewrite (f : Todo.t -> Todo.t) (ts : seq Todo.t) :
  (forall t, Todo.id (f t) = Todo.id t) ->
  [seq Todo.id t | t <- [seq f t | t <- ts]] = [seq Todo.id t | t <- ts].
Proof. by move=> Hf; rewrite -map_comp; apply: eq_map => t /=. Qed.

(** One operation keeps the ids in order, drops some of them, or adds its
    own clock reading after them. *)
Lemma apply_ids o st : subseq (ids (apply o st)) (ids st ++ stamps [:: o]).
Proof.
rewrite /ids.
case: o => [text c now|i|i|name|name|old new|c|c] /=;
  rewrite ?cats0 ?subseq_refl //.
- rewrite addTodoWith_todos; case: ifP => _; first exact: prefix_subseq.
  by rewrite map_rcons cats1 subseq_refl.
- by rewrite ids_rewrite ?subseq_refl // => t; case: ifP.
- exact/map_subseq/filter_subseq.
- by rewrite addCategoryNamed_todos subseq_refl.
- by rewrite deleteCategory_todos ids_rewrite ?subseq_refl // => t; case: ifP.
- rewrite renameCategory_todos; case: ifP => _; last exact: subseq_refl.
  by rewrite ids_rewrite ?subseq_refl // => t; case: ifP.
Qed.

Lemma run_ids ops st : subseq (ids (run ops st)) (ids st ++ stamps ops).
Proof.
elim: ops st => [|o ops IH] st; first by rewrite /= cats0 subseq_refl.
rewrite -[run (o :: ops) st]/(run ops (apply o st)).
apply: subseq_trans (IH _) _.
have -> : stamps (o :: ops) = stamps [:: o] ++ stamps ops.
  by rewrite -[o :: ops]/([:: o] ++ ops) /stamps pmap_cat.
by rewrite catA subseq_cat2r apply_ids.
Qed.

(** C8, as stated, fails: two to-dos created at the same clock reading
    carry the same id. *)
Lemma ids_distinct_fails :
  ~ (forall ops,
       let st := run ops initialState in
       uniq (ids st) /\ sorted Z.leb (ids st)).
Proof.
by move/(_ [:: AddTodo (js "a") (js "") 5; AddTodo (js "b") (js "") 5]) => [].
Qed.

(** And a clock that steps back gives a later to-do a smaller id. *)
Lemma ids_monotonic_fails :
  sorted Z.leb
    (ids (run [:: AddTodo (js "a") (js "") 5; AddTodo (js "b") (js "") 4]
            initialState)) = false.
Proof. by []. Qed.

(** C8, amended. The id of a to-do is the clock reading of the [addTodo]
    that created it, and the to-dos are kept in creation order: the ids of
    the collection are a subsequence of the clock readings of the
    successive [addTodo] calls. Hence, when these readings never decrease,
    a to-do created later never has a smaller id; and when they strictly
    increase, the ids are pairwise distinct. *)
Theorem ids_follow_clock ops :
  let st := run ops initialState in
  [/\ subseq (ids st) (stamps ops),
      sorted Z.leb (stamps ops) -> sorted Z.leb (ids st)
    & sorted Z.ltb (stamps ops) -> uniq (ids st) /\ sorted Z.ltb (ids st)].
Proof.
move=> st; have Hs : subseq (ids st) (stamps ops) := run_ids ops initialState.
split=> // [|Hlt]; first exact/subseq_sorted/Hs/Zleb_trans.
have Hid : sorted Z.ltb (ids st) := subseq_sorted Zltb_trans Hs Hlt.
by split=> //; apply: sorted_uniq Hid; [exact: Zltb_trans | exact: Zltb_irr].
Qed.

Lemma ids_follow_clock_witness :
  let ops := [:: AddTodo (js "a") (js "") 5; AddTodo (js " ") (js "") 6;
                 AddTodo (js "b") (js "Work") 8; DeleteTodo 5;
                 AddTodo (js "c") (js "") 9] in
  sorted Z.leb (stamps ops) /\ sorted Z.ltb (stamps ops)
  /\ sorted Z.leb (ids (run ops initialState))
  /\ uniq (ids (run ops initialState)).
Proof.
move=> ops; have [_ Hle Hlt] := ids_follow_clock ops.
have Hs1 : sorted Z.leb (stamps ops) by [].
have Hs2 : sorted Z.ltb (stamps ops) by [].
split; first exact: Hs1.
split; first exact: Hs2.
split; first exact: Hle Hs1.
by case: (Hlt Hs2).
Defined.

(** ** The derived view *)

Section SortedView.

Variable localeCompare : jsstring -> jsstring -> Z.

(** [a] collates before [b] or with it. *)
Let le (a b : jsstring) : bool := (localeCompare a b <=? 0)%Z.

(** The collation is a consistent comparison: any two strings are ordered
    one way or the other, and the order is transitive. *)
Hypothesis le_total : total le.
Hypothesis le_trans : transitive le.

Lemma before_total : total (before localeCompare).
Proof. by move=> a b; apply: le_total. Qed.

Lemma before_trans : transitive (before localeCompare).
Proof. by move=> b a c; apply: le_trans. Qed.

Lemma le_refl c : le c c.
Proof. by have := le_total c c; rewrite orbb. Qed.

(** To-dos that are pairwise in order are a sorted array. *)
Lemma class_sorted (p : pred Todo.t) (s : seq Todo.t) :
  {in p &, forall a b, before localeCompare a b} ->
  all p s -> sorted (before localeCompare) s.
Proof.
move=> Hp; elim: s => // a [|b s] IH //= /and3P[pa pb ps].
by rewrite Hp //=; apply: IH; rewrite /= pb ps.
Qed.

(** Stability: the members of a class of to-dos that are pairwise in order
    come out of the sort in the order they went in. *)
Lemma sort_keeps_class (p : pred Todo.t) (s : seq Todo.t) :
  {in p &, forall a b, before localeCompare a b} ->
  [seq t <- sort (before localeCompare) s | p t] = [seq t <- s | p t].
Proof.
move=> Hp; rewrite (filter_sort before_total before_trans).
by apply: (sorted_sort before_trans); apply: class_sorted Hp (filter_all _ _).
Qed.

(** C5. The derived view is made of the to-dos whose category is the
    string of the active filter, of all the to-dos when the filter is
    ["all"], each taken once; it is ordered by the collation of the category
    names; and the sort is stable: the to-dos of one category, and more
    generally the to-dos whose categories collate as equal, keep the order
    they have in the collection. In particular three to-dos of categories
    "B", "A", "A" and ids 1, 2, 3 are shown in the order 2, 3, 1, as soon
    as "B" collates after "A". *)
Theorem sortedTodos_stable_sort st :
  let view := sortedTodos localeCompare st in
  let chosen :=
    if filterCategory st == js "all" then todos st
    else [seq t <- todos st | Todo.category t == filterCategory st] in
  [/\ perm_eq view chosen,
      sorted (fun a b => le (Todo.category a) (Todo.category b)) view,
      forall c, [seq t <- view | Todo.category t == c]
                = [seq t <- chosen | Todo.category t == c],
      forall c, [seq t <- view
                | le (Todo.category t) c && le c (Todo.category t)]
                = [seq t <- chosen
                  | le (Todo.category t) c && le c (Todo.category t)]
    & (0 < localeCompare (js "B") (js "A"))%Z ->
      forall x1 x2 x3 b1 b2 b3,
        sortedTodos localeCompare
          (setFilterCategory (js "all")
             (setTodos [:: Todo.Make 1 x1 b1 (js "B");
                           Todo.Make 2 x2 b2 (js "A");
                           Todo.Make 3 x3 b3 (js "A")] st))
        = [:: Todo.Make 2 x2 b2 (js "A"); Todo.Make 3 x3 b3 (js "A");
              Todo.Make 1 x1 b1 (js "B")]].
Proof.
move=> view chosen; split.
- by rewrite /view /sortedTodos perm_sort.
- exact: (sort_sorted before_total).
- move=> c; apply: sort_keeps_class => a b /eqP Ha /eqP Hb.
  by rewrite /before /compareFn Ha Hb; apply: le_refl.
- move=> c; apply: sort_keeps_class => a b /andP[Ha _] /andP[_ Hb].
  exact: le_trans Ha Hb.
- move=> HBA x1 x2 x3 b1 b2 b3.
  have nBA : le (js "B") (js "A") = false by apply/Z.leb_gt.
  have AB : le (js "A") (js "B").
    by have := le_total (js "A") (js "B"); rewrite nBA orbF.
  have AA := le_refl (js "A").
  rewrite /le in nBA AB AA.
  rewrite /sortedTodos /filteredTodos /= /sort /= /before /compareFn /=.
  by rewrite nBA /= ?AA /= ?AB /= ?AA /= ?AB ?nBA.
Qed.

End SortedView.

(** Comparison by code units is a consistent comparison. *)
Lemma codeUnit_total :
  total (fun a b => (codeUnitCompare a b <=? 0)%Z).
Proof.
move=> a b; elim: a b => [|x a IH] [|y b] //=.
by case: (N.ltb_spec x y) => // Hxy; case: (N.ltb_spec y x) => //= Hyx.
Qed.

Lemma codeUnit_trans :
  transitive (fun a b => (codeUnitCompare a b <=? 0)%Z).
Proof.
move=> b a c; elim: a b c => [|x a IH] [|y b] [|z c] //=.
case: (N.ltb_spec x y) => Hxy; case: (N.ltb_spec y z) => Hyz;
  case: (N.ltb_spec x z) => Hxz //;
  repeat (case: N.ltb_spec => //= ?); try lia.
exact: IH.
Qed.

Lemma sortedTodos_stable_sort_witness :
  let st :=
    setFilterCategory (js "all")
      (setTodos [:: Todo.Make 1 (js "pay") false (js "B");
                    Todo.Make 2 (js "buy") true (js "A");
                    Todo.Make 3 (js "fix") false (js "A")] initialState) in
  [/\ total (fun a b => (codeUnitCompare a b <=? 0)%Z),
      transitive (fun a b => (codeUnitCompare a b <=? 0)%Z),
      (0 < codeUnitCompare (js "B") (js "A"))%Z
    & [seq Todo.id t | t <- sortedTodos codeUnitCompare st] = [:: 2; 3; 1]%Z].
Proof.
move=> st; split; [exact: codeUnit_total | exact: codeUnit_trans | by [] |].
have [_ _ _ _ H] :=
  sortedTodos_stable_sort codeUnit_total codeUnit_trans initialState.
have HBA : (0 < codeUnitCompare (js "B") (js "A"))%Z by [].
by rewrite /st (H HBA).
Defined.

(** * Further properties of the handlers *)

(** ** Deleting a to-do *)

Lemma count_ids (ts : seq Todo.t) i :
  count_mem i [seq Todo.id t | t <- ts] = count (fun t => Todo.id t == i) ts.
Proof. by rewrite count_map. Qed.

Lemma size_deleteTodo st i :
  size (todos (deleteTodo i st)) = size (todos st) - count_mem i (ids st).
Proof.
rewrite /= size_filter /ids count_ids.
by rewrite -(count_predC (fun t => Todo.id t == i) (todos st)) addKn.
Qed.

(** [deleteTodo(id)] removes every to-do whose id is [id] and nothing
    else: no to-do of that id is left, the to-dos of any other id are all
    kept, the remaining to-dos keep their order, and the collection shrinks
    by the number of to-dos that carried the id, which is one or zero when
    the ids are pairwise distinct. When no to-do has the id, the state is
    unchanged. *)
Theorem deleteTodo_removes st i :
  let st' := deleteTodo i st in
  [/\ i \notin ids st',
      forall j, j != i ->
        [seq t <- todos st' | Todo.id t == j]
        = [seq t <- todos st | Todo.id t == j],
      subseq (todos st') (todos st)
    & size (todos st') = size (todos st) - count_mem i (ids st)]
  /\ (uniq (ids st) -> size (todos st') = size (todos st) - (i \in ids st))
  /\ (i \notin ids st -> st' = st).
Proof.
move=> st'; split; [split | split].
- apply/negP => /mapP[t]; rewrite /st' /= mem_filter => /andP[Ht _] E.
  by rewrite E eqxx in Ht.
- move=> j Hj; rewrite /st' /= -filter_predI; apply: eq_filter => t /=.
  by case: (eqVneq (Todo.id t) j) => // ->.
- exact: filter_subseq.
- exact: size_deleteTodo.
- by move=> Hu; rewrite size_deleteTodo count_uniq_mem.
- case: st @st' => ts inp cs sel flt nc ec ev; rewrite /deleteTodo /ids /=.
  move=> Hi; rewrite /setTodos /=; congr MkState.
  apply/all_filterP/allP => t Ht; apply: contraNneq Hi => <-.
  exact: map_f.
Qed.

Lemma deleteTodo_removes_witness :
  let st := run [:: AddTodo (js "a") (js "") 5; AddTodo (js "b") (js "") 6]
              initialState in
  [/\ uniq (ids st), 7%Z \notin ids st,
      size (todos (deleteTodo 5 st)) = 1 & deleteTodo 7 st = st].
Proof.
move=> st; have [_ [Hs Ha]] := deleteTodo_removes st 7.
have [_ [Hs5 _]] := deleteTodo_removes st 5.
have Hu : uniq (ids st) by [].
have Hn : 7%Z \notin ids st by [].
by split; [exact: Hu | exact: Hn | rewrite (Hs5 Hu) | exact: Ha Hn].
Defined.

(** ** The to-do handlers compose *)

Lemma toggledE i (t : Todo.t) :
  (if Todo.id t == i then Todo.with_completed (~~ Todo.completed t) t else t)
  = toggled i t.
Proof. by case: t => j x b c; rewrite /toggled /=; case: (j == i). Qed.

Lemma toggleTodo_todos st i :
  todos (toggleTodo i st) = [seq toggled i t | t <- todos st].
Proof. by apply: eq_map => t; apply: toggledE. Qed.

Lemma setTodos_inj st ts ts' : ts = ts' -> setTodos ts st = setTodos ts' st.
Proof. by move=> ->. Qed.

(** Deleting the same id twice is deleting it once; deletions commute,
    check boxes commute, and a check box commutes with a deletion: the
    outcome of a series of clicks on to-dos does not depend on their
    order. *)
Theorem todo_handlers_commute st i j :
  [/\ deleteTodo i (deleteTodo i st) = deleteTodo i st,
      deleteTodo i (deleteTodo j st) = deleteTodo j (deleteTodo i st),
      toggleTodo i (toggleTodo j st) = toggleTodo j (toggleTodo i st)
    & toggleTodo i (deleteTodo j st) = deleteTodo j (toggleTodo i st)].
Proof.
split.
- by rewrite /deleteTodo /=; apply: setTodos_inj; rewrite filter_id.
- rewrite /deleteTodo /=; apply: setTodos_inj; rewrite -!filter_predI.
  by apply: eq_filter => t /=; rewrite andbC.
- rewrite /toggleTodo /=; apply: setTodos_inj; rewrite -!map_comp.
  apply: eq_map => -[k x b c] /=.
  by case Ej: (k == j); case Ei: (k == i); rewrite /= ?Ei ?Ej.
- rewrite /toggleTodo /deleteTodo /=; apply: setTodos_inj.
  rewrite filter_map; congr map; apply: eq_filter => t /=.
  by case: ifP.
Qed.

(** ** Pressing a button twice *)

Lemma trim_empty : trim (js "") = [::].
Proof. by []. Qed.

Lemma addTodo_rejected st now : trim (input st) = [::] -> addTodo now st = st.
Proof. by rewrite /addTodo truthyE => ->. Qed.


Lemma saveEditCategory_rejected st :
  (trim (editCategoryValue st) != [::])
  && (trim (editCategoryValue st) \notin categories st) = false ->
  saveEditCategory st = st.
Proof. by rewrite /saveEditCategory truthyE => ->. Qed.

(** [addTodo] empties the text box when it adds a to-do, so pressing Add
    again right away adds nothing, whatever the clock says; a rejected Add
    leaves the whole state as it is. The category select is never reset:
    the next to-do goes to the same category. *)
Theorem addTodo_twice st now now' :
  [/\ addTodo now' (addTodo now st) = addTodo now st,
      input (addTodo now st)
        = (if trim (input st) == [::] then input st else js ""),
      trim (input st) = [::] -> addTodo now st = st
    & selectedCategory (addTodo now st) = selectedCategory st].
Proof.
have Hin : input (addTodo now st)
           = (if trim (input st) == [::] then input st else js "").
  by rewrite /addTodo truthyE; case: eqP.
split=> //; try by rewrite /addTodo; case: ifP.
  case: (eqVneq (trim (input st)) [::]) => [E|Hne].
    by rewrite !addTodo_rejected.
  by apply: addTodo_rejected; rewrite Hin (negbTE Hne).
exact: addTodo_rejected.
Qed.

Lemma addTodo_twice_witness :
  let st := setInput (js "  ") initialState in
  trim (input st) = [::] /\ addTodo 9 st = st.
Proof.
move=> st; have [_ _ H _] := addTodo_twice st 9 9.
by split; [| apply: H].
Defined.


(** ** The edit box of a category *)

(** [saveEditCategory] leaves edit mode exactly when it accepts the name:
    the edited category and the edit box are then cleared, and a second
    Save does nothing; a rejected Save leaves the whole state as it is,
    edit mode included. *)
Theorem saveEditCategory_twice st :
  let accepted :=
    (trim (editCategoryValue st) != [::])
    && (trim (editCategoryValue st) \notin categories st) in
  [/\ saveEditCategory (saveEditCategory st) = saveEditCategory st,
      editingCategory (saveEditCategory st)
        = (if accepted then None else editingCategory st),
      editCategoryValue (saveEditCategory st)
        = (if accepted then js "" else editCategoryValue st)
    & accepted = false -> saveEditCategory st = st].
Proof.
move=> accepted; rewrite /accepted.
have Hval : editCategoryValue (saveEditCategory st)
            = (if (trim (editCategoryValue st) != [::])
                  && (trim (editCategoryValue st) \notin categories st)
               then js "" else editCategoryValue st).
  by rewrite /saveEditCategory truthyE; case: ifP.
split=> //; last exact: saveEditCategory_rejected.
  case E: ((trim (editCategoryValue st) != [::])
           && (trim (editCategoryValue st) \notin categories st)).
    by apply: saveEditCategory_rejected; rewrite Hval E.
  by rewrite !saveEditCategory_rejected.
by rewrite /saveEditCategory truthyE; case: ifP.
Qed.

Lemma saveEditCategory_twice_witness :
  let st := setEditCategoryValue (js " Work ")
              (startEditCategory (js "Personal") initialState) in
  (trim (editCategoryValue st) != [::])
  && (trim (editCategoryValue st) \notin categories st) = false
  /\ saveEditCategory st = st.
Proof.
move=> st; have [_ _ _ H] := saveEditCategory_twice st.
by split; [| apply: H].
Defined.

(** Cancel undoes an edit that was started outside edit mode: Edit, any
    typing, then Cancel gives back the state as it was. *)
Theorem cancelEditCategory_restores st category value :
  editingCategory st = None -> editCategoryValue st = js "" ->
  cancelEditCategory
    (setEditCategoryValue value (startEditCategory category st)) = st.
Proof. by case: st => ts inp cs sel flt nc ec ev /= -> ->. Qed.

Lemma cancelEditCategory_restores_witness :
  editingCategory initialState = None
  /\ editCategoryValue initialState = js ""
  /\ cancelEditCategory
       (setEditCategoryValue (js "Job")
          (startEditCategory (js "Work") initialState)) = initialState.
Proof.
by split; [| split; [| apply: cancelEditCategory_restores]].
Defined.

(** ** Deleting categories composes *)

Lemma deleteCategoryE st c :
  deleteCategory c st =
    MkState
      [seq (if Todo.category t == c
            then Todo.with_category Uncategorized t else t) | t <- todos st]
      (input st)
      [seq x <- categories st | x != c]
      (if selectedCategory st == c then js "" else selectedCategory st)
      (if filterCategory st == c then all_sentinel else filterCategory st)
      (newCategory st) (editingCategory st) (editCategoryValue st).
Proof. by rewrite /deleteCategory; do 2![case: ifP => _]. Qed.

(** The reset of a selection by two deletions, in either order. *)
Lemma reset_twice (d : jsstring) (a b x : jsstring) :
  (if (if x == a then d else x) == b then d else (if x == a then d else x))
  = (if (x == a) || (x == b) then d else x).
Proof.
case: (eqVneq x a) => //= _; first by case: ifP.
Qed.

Lemma uncategorize_twice a b (t : Todo.t) :
  let f c t := if Todo.category t == c
               then Todo.with_category Uncategorized t else t in
  f b (f a t) = if (Todo.category t == a) || (Todo.category t == b)
                then Todo.with_category Uncategorized t else t.
Proof.
case: t => i x d c /=; case: (eqVneq c a) => //= _.
by case: ifP.
Qed.

(** Deleting a category twice is deleting it once, and two deletions give
    the same state in either order, whatever the names and whether or not
    they are listed. *)
Theorem deleteCategory_commute st a b :
  deleteCategory a (deleteCategory a st) = deleteCategory a st
  /\ deleteCategory a (deleteCategory b st)
     = deleteCategory b (deleteCategory a st).
Proof.
have H x y :
  deleteCategory y (deleteCategory x st) =
    MkState
      [seq (if (Todo.category t == x) || (Todo.category t == y)
            then Todo.with_category Uncategorized t else t) | t <- todos st]
      (input st)
      [seq c <- categories st | (c != x) && (c != y)]
      (if (selectedCategory st == x) || (selectedCategory st == y)
       then js "" else selectedCategory st)
      (if (filterCategory st == x) || (filterCategory st == y)
       then all_sentinel else filterCategory st)
      (newCategory st) (editingCategory st) (editCategoryValue st).
  rewrite (deleteCategoryE (deleteCategory x st)) !deleteCategoryE /=.
  rewrite !reset_twice -map_comp -filter_predI; congr MkState.
    by apply: eq_map => t; apply: uncategorize_twice.
  by apply: eq_filter => c /=; rewrite andbC.
split.
  rewrite H deleteCategoryE; congr MkState; rewrite ?orbb //.
  - by apply: eq_map => t; rewrite orbb.
  - by apply: eq_filter => c; rewrite andbb.
rewrite !H; congr MkState; rewrite 1?orbC //.
- by apply: eq_map => t; rewrite orbC.
- by apply: eq_filter => c; rewrite andbC.
Qed.

(** ** Round trips *)

Lemma map_replace_back (T : eqType) (a b : T) (s : seq T) :
  b \notin s ->
  [seq (if x == b then a else x)
  | x <- [seq (if x == a then b else x) | x <- s]] = s.
Proof.
move=> Hb; rewrite -map_comp; apply: map_id_in => x Hx /=.
case: (eqVneq x a) => [->|_]; first by rewrite eqxx.
by case: eqP Hb => // <-; rewrite Hx.
Qed.

Lemma replaced_absent (T : eqType) (a b : T) (s : seq T) :
  a != b -> a \notin [seq (if x == a then b else x) | x <- s].
Proof.
move=> Hab; apply/negP => /mapP[x _].
case: (eqVneq x a) => [_ E|Hx E]; first by rewrite E eqxx in Hab.
by rewrite E eqxx in Hx.
Qed.

(** Renaming a category to a fresh name and back restores both collections
    and both selections. The names must be storable (not empty, already
    trimmed) and the new one must be in use nowhere: not listed, carried by
    no to-do, selected by neither select. *)
Theorem renameCategory_round_trip st a b :
  category_ok a -> category_ok b -> a != b ->
  b \notin categories st -> b \notin used st ->
  selectedCategory st != b -> filterCategory st != b ->
  store (renameCategory b a (renameCategory a b st)) = store st.
Proof.
move=> /andP[Ha0 /eqP Ta] /andP[Hb0 /eqP Tb] Hab Hb Hu Hs Hf.
set st1 := renameCategory a b st.
have C1 : categories st1 = [seq (if x == a then b else x) | x <- categories st].
  by rewrite renameCategory_categories Tb Hb0 Hb.
have T1 : todos st1 = [seq (if Todo.category t == a
                             then Todo.with_category b t else t)
                       | t <- todos st].
  by rewrite renameCategory_todos Tb Hb0 Hb.
have S1 : selectedCategory st1
          = if selectedCategory st == a then b else selectedCategory st.
  by rewrite renameCategory_selected Tb Hb0 Hb.
have F1 : filterCategory st1
          = if filterCategory st == a then b else filterCategory st.
  by rewrite renameCategory_filter Tb Hb0 Hb.
have Hacc : (trim a != [::]) && (trim a \notin categories st1).
  by rewrite Ta Ha0 C1 replaced_absent.
rewrite /store renameCategory_categories renameCategory_todos.
rewrite renameCategory_selected renameCategory_filter Hacc /= Ta.
rewrite C1 map_replace_back // T1 S1 F1; congr (_, _, _, _).
- rewrite -map_comp; apply: map_id_in => -[i x d c] Ht /=.
  case: (eqVneq c a) => [->|_] /=; first by rewrite eqxx.
  case: eqP => // E; move: Hu; rewrite /used.
  by rewrite -E (map_f Todo.category Ht).
- case: (eqVneq (selectedCategory st) a) => [->|_]; first by rewrite eqxx.
  by rewrite (negbTE Hs).
- case: (eqVneq (filterCategory st) a) => [->|_]; first by rewrite eqxx.
  by rewrite (negbTE Hf).
Qed.

Lemma renameCategory_round_trip_witness :
  let st := run [:: AddTodo (js "report") (js "Work") 3;
                    SetFilter (js "Work")] initialState in
  store (renameCategory (js "Job") (js "Work")
           (renameCategory (js "Work") (js "Job") st)) = store st.
Proof. by move=> st; apply: renameCategory_round_trip. Defined.

(** Adding a category and deleting it again restores both collections and
    both selections, provided the trimmed name was in use nowhere. *)
Theorem addCategory_deleteCategory st name :
  let n := trim name in
  n != [::] -> n \notin categories st -> n \notin used st ->
  selectedCategory st != n -> filterCategory st != n ->
  store (deleteCategory n (addCategoryNamed name st)) = store st.
Proof.
move=> n Hn0 Hn Hu Hs Hf.
rewrite /store deleteCategory_categories deleteCategory_todos.
rewrite deleteCategory_selected deleteCategory_filter.
rewrite addCategoryNamed_categories addCategoryNamed_todos.
rewrite addCategoryNamed_selected -/n Hn0 Hn /=.
have -> : filterCategory (addCategoryNamed name st) = filterCategory st.
  by rewrite /addCategoryNamed /addCategory /=; case: ifP.
rewrite (negbTE Hs) (negbTE Hf) filter_rcons eqxx /=; congr (_, _, _, _).
- apply: map_id_in => t Ht; case: eqP => // E.
  by move: Hu; rewrite /used -E (map_f Todo.category Ht).
- by apply/all_filterP/allP => c Hc; apply: contraNneq Hn => <-.
Qed.

Lemma addCategory_deleteCategory_witness :
  store (deleteCategory (js "Home")
           (addCategoryNamed (js " Home ") initialState))
  = store initialState.
Proof.
have H := @addCategory_deleteCategory initialState (js " Home ").
exact: H.
Defined.

(** Adding a to-do and deleting it again restores the to-dos when its id
    was fresh; an id already carried by other to-dos takes them away
    too. *)
Theorem addTodo_deleteTodo st text category now :
  todos (deleteTodo now (addTodoWith text category now st))
    = [seq t <- todos st | Todo.id t != now]
  /\ (now \notin ids st ->
      todos (deleteTodo now (addTodoWith text category now st)) = todos st).
Proof.
have H : todos (deleteTodo now (addTodoWith text category now st))
         = [seq t <- todos st | Todo.id t != now].
  rewrite /= addTodoWith_todos; case: ifP => // _.
  by rewrite filter_rcons /= eqxx.
split=> // Hn; rewrite H; apply/all_filterP/allP => t Ht.
by apply: contraNneq Hn => <-; apply: map_f.
Qed.

Lemma addTodo_deleteTodo_witness :
  let st := run [:: AddTodo (js "a") (js "") 5] initialState in
  6%Z \notin ids st
  /\ todos (deleteTodo 6 (addTodoWith (js "b") (js "Work") 6 st)) = todos st.
Proof.
move=> st; have [_ H] := addTodo_deleteTodo st (js "b") (js "Work") 6.
by split; [| apply: H].
Defined.

(** ** The view after a click *)

Lemma filteredTodos_toggle st i :
  filteredTodos (toggleTodo i st) = [seq toggled i t | t <- filteredTodos st].
Proof.
rewrite /filteredTodos toggleTodo_todos /=; case: ifP => // _.
by rewrite filter_map.
Qed.

Lemma filteredTodos_delete st i :
  filteredTodos (deleteTodo i st)
  = [seq t <- filteredTodos st | Todo.id t != i].
Proof.
rewrite /filteredTodos /=; case: ifP => // _.
by rewrite -!filter_predI; apply: eq_filter => t /=; rewrite andbC.
Qed.

(** Checking or unchecking a to-do never reorders the displayed list: the
    view of the new state is the old view with the check box flipped in
    place. This holds for any collation. *)
Theorem sortedTodos_toggle localeCompare st i :
  sortedTodos localeCompare (toggleTodo i st)
  = [seq toggled i t | t <- sortedTodos localeCompare st].
Proof. by rewrite /sortedTodos filteredTodos_toggle sort_map. Qed.

Section ViewUpdates.

Variable localeCompare : jsstring -> jsstring -> Z.

Hypothesis le_total : total (fun a b => (localeCompare a b <=? 0)%Z).
Hypothesis le_trans : transitive (fun a b => (localeCompare a b <=? 0)%Z).

(** Deleting a to-do takes it out of the displayed list and leaves the
    other rows in the order they had. *)
Theorem sortedTodos_delete st i :
  sortedTodos localeCompare (deleteTodo i st)
  = [seq t <- sortedTodos localeCompare st | Todo.id t != i].
Proof.
rewrite /sortedTodos filteredTodos_delete filter_sort //.
  exact: before_total.
exact: before_trans.
Qed.

(** Under a filter other than ["all"] the sort moves nothing: the view is
    the to-dos of the chosen category in the order of the collection. *)
Theorem sortedTodos_one_category st :
  filterCategory st != js "all" ->
  sortedTodos localeCompare st
  = [seq t <- todos st | Todo.category t == filterCategory st].
Proof.
rewrite /sortedTodos /filteredTodos => /negbTE ->.
apply: (sorted_sort (before_trans le_trans)).
apply: (@class_sorted localeCompare
          (fun t => Todo.category t == filterCategory st)).
  move=> a b /eqP Ha /eqP Hb; rewrite /before /compareFn Ha Hb.
  exact: (le_refl le_total).
exact: filter_all.
Qed.

End ViewUpdates.

Lemma sortedTodos_delete_witness :
  let st := run [:: AddTodo (js "a") (js "Work") 5;
                    AddTodo (js "b") (js "Personal") 6;
                    AddTodo (js "c") (js "Work") 7] initialState in
  [/\ total (fun a b => (codeUnitCompare a b <=? 0)%Z),
      transitive (fun a b => (codeUnitCompare a b <=? 0)%Z)
    & [seq Todo.id t | t <- sortedTodos codeUnitCompare (deleteTodo 5 st)]
      = [:: 6; 7]%Z].
Proof.
move=> st; split; [exact: codeUnit_total | exact: codeUnit_trans |].
by rewrite (sortedTodos_delete codeUnit_total codeUnit_trans).
Defined.

Lemma sortedTodos_one_category_witness :
  let st := run [:: AddTodo (js "a") (js "Work") 5;
                    AddTodo (js "b") (js "Personal") 6;
                    AddTodo (js "c") (js "Work") 7;
                    SetFilter (js "Work")] initialState in
  [/\ total (fun a b => (codeUnitCompare a b <=? 0)%Z),
      transitive (fun a b => (codeUnitCompare a b <=? 0)%Z),
      filterCategory st != js "all"
    & [seq Todo.id t | t <- sortedTodos codeUnitCompare st] = [:: 5; 7]%Z].
Proof.
move=> st; split; [exact: codeUnit_total | exact: codeUnit_trans | by [] |].
by rewrite (sortedTodos_one_category codeUnit_total codeUnit_trans).
Defined.

(** ** What the collections never hold *)

Lemma category_ok_clean c : category_ok c -> clean_ends c.
Proof.
case/andP=> _ /eqP E; rewrite /clean_ends -{1}E trim_clean /=.
by rewrite -E /trim /trimEnd revK trimStart_clean.
Qed.

Lemma saveEditCategory_categories st :
  categories (saveEditCategory st) =
    if (trim (editCategoryValue st) != [::])
       && (trim (editCategoryValue st) \notin categories st)
    then [seq (if Some c == editingCategory st
               then trim (editCategoryValue st) else c) | c <- categories st]
    else categories st.
Proof.
rewrite /saveEditCategory truthyE; case: ifP => //= _.
by do 2![case: ifP => _].
Qed.

Lemma saveEditCategory_todos st :
  todos (saveEditCategory st) =
    if (trim (editCategoryValue st) != [::])
       && (trim (editCategoryValue st) \notin categories st)
    then [seq (if Some (Todo.category t) == editingCategory st
               then Todo.with_category (trim (editCategoryValue st)) t
               else t) | t <- todos st]
    else todos st.
Proof.
rewrite /saveEditCategory truthyE; case: ifP => //= _.
by do 2![case: ifP => _].
Qed.

Lemma handle_categories_ok e st :
  categories_ok st -> categories_ok (handle e st).
Proof.
rewrite /categories_ok.
case: e => [v|now|v|v|v||c|c|v|||i|i] //= /andP[Hu Hok].
- by rewrite /addTodo; case: ifP => //= _; rewrite Hu Hok.
- rewrite addCategory_op addCategoryNamed_categories.
  case: ifP => [/andP[Hn0 Hn]|_]; last by rewrite Hu Hok.
  by rewrite rcons_uniq Hn Hu all_rcons Hok /category_ok Hn0 trim_idem eqxx.
- rewrite deleteCategory_categories filter_uniq //= all_filter.
  by apply: sub_all Hok => x /= Hx; rewrite Hx implybT.
- rewrite saveEditCategory_categories.
  case: ifP => [/andP[Hn0 Hn]|_]; last by rewrite Hu Hok.
  apply/andP; split.
    case E: (editingCategory st) => [old|].
      by under eq_map do rewrite Some_eqE; apply: replace_uniq.
    by rewrite map_id.
  rewrite all_map; apply: sub_all Hok => x /= Hx.
  by case: ifP => // _; rewrite /category_ok Hn0 trim_idem eqxx.
Qed.

Lemma handle_todos_ok e st : todos_ok st -> todos_ok (handle e st).
Proof.
rewrite /todos_ok.
case: e => [v|now|v|v|v||c|c|v|||i|i] //= Hok.
- rewrite /addTodo !truthyE; case: ifP => //= Hin.
  rewrite all_cat Hok /= /todo_ok /= Hin andbT.
  by case: ifP => //= ->.
- by rewrite /addCategory; case: ifP.
- rewrite deleteCategory_todos all_map; apply: sub_all Hok => t /=.
  by rewrite /todo_ok; case: ifP => //= _ /andP[-> _].
- rewrite saveEditCategory_todos; case: ifP => [/andP[Hn0 _]|//].
  rewrite all_map; apply: sub_all Hok => t /=.
  by rewrite /todo_ok; case: ifP => //= _ /andP[-> _].
- rewrite all_map; apply: sub_all Hok => t /=.
  by rewrite /todo_ok; case: ifP.
- by rewrite all_filter; apply: sub_all Hok => t /= Ht; rewrite Ht implybT.
Qed.

Lemma play_ok events st :
  categories_ok st && todos_ok st ->
  categories_ok (play events st) && todos_ok (play events st).
Proof.
elim: events st => //= e events IH st /andP[Hc Ht]; apply: IH.
by rewrite handle_categories_ok // handle_todos_ok.
Qed.

(** Whatever sequence of handler calls the component goes through, with
    whatever arguments, the categories hold no duplicate, no empty name and
    no name with white space at either end, and every to-do has a text
    that is not blank and a category that is not the empty string. *)
Theorem play_wellformed events :
  let st := play events initialState in
  [/\ uniq (categories st),
      all (fun c => [&& c != [::], trim c == c & clean_ends c])
        (categories st)
    & all (fun t => (trim (Todo.text t) != [::])
                    && (Todo.category t != [::])) (todos st)].
Proof.
move=> st; have H0 : categories_ok initialState && todos_ok initialState by [].
have /andP[/andP[Hu Hc] Ht] := play_ok events H0.
split=> //; apply: sub_all Hc => c Hc; move: (category_ok_clean Hc).
by case/andP: Hc => -> -> ->.
Qed.

(** Edit followed by Save without a change does not leave edit mode: the
    name in the edit box is the category itself, which is listed, so Save
    is rejected and the state stays as Edit left it. *)
Theorem save_unchanged_name events category :
  let st := play events initialState in
  category \in categories st ->
  saveEditCategory (startEditCategory category st)
  = startEditCategory category st.
Proof.
move=> st Hc; apply: saveEditCategory_rejected => /=.
have H0 : categories_ok initialState && todos_ok initialState by [].
have /andP[/andP[_ /allP Hok] _] := play_ok events H0.
by have /andP[_ /eqP ->] := Hok _ Hc; rewrite Hc andbF.
Qed.

Lemma save_unchanged_name_witness :
  let st := play [:: TypeNewCategory (js " Home "); PressAddCategory]
              initialState in
  js "Home" \in categories st
  /\ editingCategory (saveEditCategory (startEditCategory (js "Home") st))
     = Some (js "Home").
Proof.
move=> st; have Hc : js "Home" \in categories st by [].
have H := @save_unchanged_name
            [:: TypeNewCategory (js " Home "); PressAddCategory] (js "Home") Hc.
by split; [exact: Hc | rewrite H].
Defined.

(** ** The selects always show one of their options *)

Lemma option_replace (fixed cs : seq jsstring) old n (x : jsstring) :
  old \in cs -> x \in fixed ++ cs ->
  (if x == old then n else x)
    \in fixed ++ [seq (if c == old then n else c) | c <- cs].
Proof.
move=> Ho; rewrite !mem_cat; case: (eqVneq x old) => [_ _|Hx].
  by apply/orP; right; apply/mapP; exists old => //; rewrite eqxx.
case/orP => [->//|Hin]; apply/orP; right; apply/mapP; exists x => //.
by rewrite (negbTE Hx).
Qed.

Lemma filter_okE st :
  filter_ok st
  = (filterCategory st \in [:: js "all"; js "Uncategorized"] ++ categories st).
Proof. by []. Qed.

Lemma handle_filter_ok e st :
  rendered st e -> filter_ok st -> filter_ok (handle e st).
Proof.
rewrite !filter_okE.
case: e => [v|now|v|v|v||c|c|v|||i|i]; rewrite /handle /rendered.
- by [].
- by rewrite /addTodo; case: ifP.
- by [].
- by [].
- by [].
- move=> _; rewrite /addCategory; case: ifP => // _.
  rewrite [categories _]/= [filterCategory _]/= !mem_cat.
  by case/orP=> [->//|->]; rewrite !orbT.
- by [].
- move=> _; rewrite deleteCategory_filter deleteCategory_categories.
  case: (eqVneq (filterCategory st) c) => // Hne.
  by rewrite !mem_cat mem_filter Hne.
- by [].
- move=> /editing_rowP[c Hc E]; rewrite (saveEditCategory_op E).
  rewrite renameCategory_filter renameCategory_categories.
  case: ((trim _ != [::]) && _) => //= Hf.
  exact: (@option_replace [:: js "all"; js "Uncategorized"]).
- by [].
- by [].
- by [].
Qed.

(** Driven by its rendered controls, the component always has the value of
    each select among the options it renders (the category select: [""]
    or a listed category; the filter select: ["all"], "Uncategorized" or a
    listed category), edits a category only while it is listed, and files
    every to-do under "Uncategorized" or a listed category. *)
Theorem rendered_selects events :
  rendered_run events initialState ->
  let st := play events initialState in
  [/\ selectedCategory st \in js "" :: categories st,
      filterCategory st \in [:: js "all", js "Uncategorized" & categories st],
      editing_ok st
    & all (fun t => Todo.category t \in Uncategorized :: categories st)
        (todos st)].
Proof.
have H0 : [&& integrity initialState, selection_ok initialState
            & editing_ok initialState] && filter_ok initialState by [].
elim: events initialState H0 => [|e events IH] st /andP[Hinv Hf] /=.
  by case/and3P: Hinv => Hi Hs He _; split.
case/andP=> Hr Hrun; apply: IH Hrun.
by rewrite (handle_integrity Hr Hinv) (handle_filter_ok Hr Hf).
Qed.

Lemma rendered_selects_witness :
  let events := [:: SelectFilter (js "Work"); SelectCategory (js "Work");
                    TypeInput (js "report"); PressAdd 4;
                    PressDelete (js "Work")] in
  rendered_run events initialState
  /\ filterCategory (play events initialState) = js "all"
  /\ selectedCategory (play events initialState)
       \in js "" :: categories (play events initialState).
Proof.
move=> events; have Hr : rendered_run events initialState by [].
have [Hs _ _ _] := rendered_selects Hr.
by split; [exact: Hr | split; [| exact: Hs]].
Defined.

(** ** What the category handlers never do *)

(** No category or selection event adds, removes, reorders, checks or
    rewords a to-do: deleting or renaming a category changes the category
    field of to-dos and nothing else in them. *)
Theorem category_events_keep_todos e st :
  ~~ todo_event e ->
  [seq content t | t <- todos (handle e st)]
  = [seq content t | t <- todos st].
Proof.
case: e => [v|now|v|v|v||c|c|v|||i|i] //= _.
- by rewrite /addCategory; case: ifP.
- rewrite deleteCategory_todos -map_comp; apply: eq_map => t /=.
  by case: ifP.
- rewrite saveEditCategory_todos; case: ifP => // _.
  by rewrite -map_comp; apply: eq_map => t /=; case: ifP.
Qed.

Lemma category_events_keep_todos_witness :
  let st := run [:: AddTodo (js "report") (js "Work") 3] initialState in
  ~~ todo_event (PressDelete (js "Work"))
  /\ [seq content t | t <- todos (handle (PressDelete (js "Work")) st)]
     = [:: (3%Z, js "report", false)].
Proof.
move=> st; split; first by [].
by rewrite (@category_events_keep_todos (PressDelete (js "Work")) st).
Defined.

(** After [deleteCategory(name)] nothing refers to [name] any more, the
    three built-in values apart: it is not listed, no to-do carries it
    unless it is "Uncategorized", the category select does not hold it
    unless it is [""], and the filter does not hold it unless it is
    ["all"]. *)
Theorem deleteCategory_no_reference st name :
  let st' := deleteCategory name st in
  [/\ name \notin categories st',
      name != Uncategorized -> name \notin used st',
      name != js "" -> selectedCategory st' != name
    & name != js "all" -> filterCategory st' != name].
Proof.
move=> st'; rewrite /st' /used deleteCategory_categories deleteCategory_todos.
rewrite deleteCategory_selected deleteCategory_filter; split.
- by rewrite mem_filter eqxx.
- move=> Hn; apply/negP; rewrite -map_comp => /mapP[t _] /=.
  case: (eqVneq (Todo.category t) name) => [_ E|Hne E] /=.
    by rewrite E eqxx in Hn.
  by rewrite E eqxx in Hne.
- by move=> Hn; case: (eqVneq (selectedCategory st) name) => //; rewrite eq_sym.
- by move=> Hn; case: (eqVneq (filterCategory st) name) => //; rewrite eq_sym.
Qed.

Lemma deleteCategory_no_reference_witness :
  let st := run [:: AddTodo (js "report") (js "Work") 3;
                    SetFilter (js "Work")] initialState in
  [/\ js "Work" != Uncategorized, js "Work" != js "", js "Work" != js "all",
      js "Work" \notin used (deleteCategory (js "Work") st)
    & filterCategory (deleteCategory (js "Work") st) != js "Work"].
Proof.
move=> st; have [_ Hu _ Hf] := deleteCategory_no_reference st (js "Work").
have H1 : js "Work" != Uncategorized by [].
have H2 : js "Work" != js "all" by [].
by split; [exact: H1 | | exact: H2 | exact: Hu H1 | exact: Hf H2].
Defined.

(** After an accepted [renameCategory(oldName, newName)] to a different
    name nothing refers to [oldName] any more: it is not listed, no to-do
    carries it, and neither select holds it. *)
Theorem renameCategory_no_reference st oldName newName :
  let n := trim newName in
  let st' := renameCategory oldName newName st in
  n != [::] -> n \notin categories st -> n != oldName ->
  [/\ oldName \notin categories st', oldName \notin used st',
      selectedCategory st' != oldName & filterCategory st' != oldName].
Proof.
move=> n st' Hn0 Hn Hne; rewrite /st' /used.
rewrite renameCategory_categories renameCategory_todos.
rewrite renameCategory_selected renameCategory_filter -/n Hn0 Hn /=.
have Hne' : oldName != n by rewrite eq_sym.
split.
- exact: replaced_absent.
- apply/negP; rewrite -map_comp => /mapP[t _] /=.
  case: (eqVneq (Todo.category t) oldName) => [_ E|Hc E] /=.
    by rewrite E eqxx in Hne'.
  by rewrite E eqxx in Hc.
- by case: (eqVneq (selectedCategory st) oldName).
- by case: (eqVneq (filterCategory st) oldName).
Qed.

Lemma renameCategory_no_reference_witness :
  let st := run [:: AddTodo (js "report") (js "Work") 3;
                    SetFilter (js "Work")] initialState in
  let st' := renameCategory (js "Work") (js " Job ") st in
  [/\ trim (js " Job ") != [::], trim (js " Job ") \notin categories st,
      trim (js " Job ") != js "Work", js "Work" \notin used st'
    & filterCategory st' != js "Work"].
Proof.
move=> st st'.
have H0 : trim (js " Job ") != [::] by [].
have H1 : trim (js " Job ") \notin categories st by [].
have H2 : trim (js " Job ") != js "Work" by [].
have [_ Hu _ Hf] := @renameCategory_no_reference st _ _ H0 H1 H2.
by split; [exact: H0 | exact: H1 | exact: H2 | exact: Hu | exact: Hf].
Defined.
